(** * SES: the table of data properties to repair before hardening

    [src/bundle/dataPropertiesToRepair.js] exports one constant: a nested
    record that names, for every primordial concerned, the prototype
    properties that must be turned into accessors before the primordials
    are frozen.

    The development has three parts, definitions first:
    - [Policy]: the exported record as a JavaScript value, with the
      functions that read it;
    - [Store]: the same literal evaluated into objects with an identity;
    - [Engine]: the repair pass that consumes the table, which is not
      part of the source file and is modelled from its specification.
    The facts proved about each follow in [PolicyFacts], [StoreFacts] and
    [EngineFacts]. *)

From Stdlib Require Import ZArith.
From stdpp Require Import base option list strings pretty gmap.

Open Scope string_scope.
Open Scope list_scope.

(** ** JavaScript values *)

(** Primitive values.  They are shared between the tree reading of a
    literal and the store reading, where records are addressed.  Only
    integer numbers are represented. *)
Inductive Prim : Type :=
| PUndefined
| PNull
| PBool (b : bool)
| PNum (n : Z)
| PStr (s : string).

#[global] Instance Prim_eq_dec : EqDecision Prim.
Proof. solve_decision. Defined.

(** A value at run time: a primitive, or a reference to an object. *)
Inductive Value : Type :=
| VPrim (p : Prim)
| VRef (a : nat).

Abbreviation undefined := (VPrim PUndefined).

(** A value written as a literal: a primitive, an array literal, or an
    object literal whose fields are kept in source order. *)
#[warnings="-register-all"]
Inductive JsValue : Type :=
| JPrim (p : Prim)
| JArr (items : list JsValue)
| JObj (fields : list (string * JsValue)).

Abbreviation JBool b := (JPrim (PBool b)).
Abbreviation JStr s := (JPrim (PStr s)).

Module Policy.

(** ** The exported table *)

(** [const t = true;] *)
Definition t : JsValue := JBool true.

(** [export default { namedIntrinsics: {...}, anonIntrinsics: {...} }] *)
Definition dataPropertiesToRepair : JsValue :=
  JObj [
    ("namedIntrinsics", JObj [
      ("Object", JObj [
        ("prototype", JStr "*")
      ]);

      ("Array", JObj [
        ("prototype", JStr "*")
      ]);

      ("Function", JObj [
        ("prototype", JObj [
          ("constructor", t);
          ("bind", t);
          ("name", t);
          ("toString", t)
        ])
      ]);

      ("Error", JObj [
        ("prototype", JObj [
          ("constructor", t);
          ("message", t);
          ("name", t);
          ("toString", t)
        ])
      ]);

      ("TypeError", JObj [
        ("prototype", JObj [
          ("constructor", t);
          ("name", t)
        ])
      ]);

      ("Promise", JObj [
        ("prototype", JObj [
          ("constructor", t)
        ])
      ])
    ]);

    ("anonIntrinsics", JObj [
      ("TypedArray", JObj [
        ("prototype", JStr "*")
      ]);

      ("GeneratorFunction", JObj [
        ("prototype", JObj [
          ("constructor", t);
          ("name", t);
          ("toString", t)
        ])
      ]);

      ("AsyncFunction", JObj [
        ("prototype", JObj [
          ("constructor", t);
          ("name", t);
          ("toString", t)
        ])
      ]);

      ("AsyncGeneratorFunction", JObj [
        ("prototype", JObj [
          ("constructor", t);
          ("name", t);
          ("toString", t)
        ])
      ]);

      ("IteratorPrototype", JStr "*")
    ])
  ].

(** ** Reading a value *)

(** [o[k]] on a record given by its field list: the first field named
    [k]. *)
Fixpoint field (k : string) (fs : list (string * JsValue)) : option JsValue :=
  match fs with
  | [] => None
  | (k', v) :: rest => if String.eqb k k' then Some v else field k rest
  end.

(** Following a sequence of property names from a value. *)
Fixpoint lookup_path (v : JsValue) (ks : list string) : option JsValue :=
  match ks with
  | [] => Some v
  | k :: rest =>
      match v with
      | JObj fs =>
          match field k fs with
          | Some c => lookup_path c rest
          | None => None
          end
      | _ => None
      end
  end.

(** The property names of the record found at a path, in source order. *)
Definition keys_at (v : JsValue) (ks : list string) : option (list string) :=
  match lookup_path v ks with
  | Some (JObj fs) => Some (map fst fs)
  | _ => None
  end.

(** [at_path v ks w]: the value [w] sits in [v] under the names [ks].
    Elements of an array are named by their decimal index. *)
Inductive at_path : JsValue -> list string -> JsValue -> Prop :=
| at_here v : at_path v [] v
| at_field fs k c ks w :
    In (k, c) fs -> at_path c ks w -> at_path (JObj fs) (k :: ks) w
| at_item items i c ks w :
    items !! i = Some c -> at_path c ks w ->
    at_path (JArr items) (pretty i :: ks) w.

(** Every value of a tree with the path that leads to it, parents before
    children, in source order. *)
Fixpoint nodes (v : JsValue) : list (list string * JsValue) :=
  ([], v) ::
  match v with
  | JPrim _ => []
  | JArr items =>
      concat (imap (fun i ns => map (fun '(ks, w) => (pretty i :: ks, w)) ns)
                   (map nodes items))
  | JObj fs =>
      flat_map (fun '(k, c) => map (fun '(ks, w) => (k :: ks, w)) (nodes c)) fs
  end.

(** ** The four dispositions *)

(** JavaScript's [ToBoolean] on the values of the model: [undefined],
    [null], [false], [0] and the empty string are falsy, every array and
    object is truthy. *)
Definition to_boolean (v : JsValue) : bool :=
  match v with
  | JPrim PUndefined | JPrim PNull => false
  | JPrim (PBool b) => b
  | JPrim (PNum n) => negb (Z.eqb n 0)
  | JPrim (PStr s) => negb (String.eqb s "")
  | JArr _ | JObj _ => true
  end.

Definition falsy (v : JsValue) : bool := negb (to_boolean v).

Definition is_record (v : JsValue) : bool :=
  match v with JObj _ => true | _ => false end.

(** A leaf is where a path stops: any value that is not a record. *)
Definition is_leaf (v : JsValue) : bool := negb (is_record v).

(** The file comment of the table lists what a property name may be
    associated with: another record, [true], ["*"], or a falsy value.
    [Other] is everything else. *)
Inductive Shape : Type := Record | RepairTrue | Wildcard | Falsy | Other.

Definition shape_of (v : JsValue) : Shape :=
  match v with
  | JObj _ => Record
  | JPrim (PBool true) => RepairTrue
  | JPrim (PStr "*") => Wildcard
  | _ => if falsy v then Falsy else Other
  end.

(** ** The names the runtime binds *)

(** The constructor properties of the global object (ECMA-262, 9th
    edition, 18.3): the names under which the runtime binds a constructor
    on the global object.  The table is resolved against them by its
    consumer; they are part of the language, not of this file. *)
Definition global_constructors : list string :=
  [ "Array"; "ArrayBuffer"; "Boolean"; "DataView"; "Date"; "Error";
    "EvalError"; "Float32Array"; "Float64Array"; "Function"; "Int8Array";
    "Int16Array"; "Int32Array"; "Map"; "Number"; "Object"; "Promise";
    "Proxy"; "RangeError"; "ReferenceError"; "RegExp"; "Set";
    "SharedArrayBuffer"; "String"; "Symbol"; "SyntaxError"; "TypeError";
    "Uint8Array"; "Uint8ClampedArray"; "Uint16Array"; "Uint32Array";
    "URIError"; "WeakMap"; "WeakSet" ].

(** The subtypes of [Error] (ECMA-262, 19.5.5, the NativeError
    constructors). *)
Definition native_errors : list string :=
  [ "EvalError"; "RangeError"; "ReferenceError"; "SyntaxError";
    "TypeError"; "URIError" ].

Definition mem (k : string) (l : list string) : bool :=
  existsb (String.eqb k) l.

(** The four paths at which the table has the wildcard. *)
Definition wildcard_paths : list (list string) :=
  [ ["namedIntrinsics"; "Object"; "prototype"];
    ["namedIntrinsics"; "Array"; "prototype"];
    ["anonIntrinsics"; "TypedArray"; "prototype"];
    ["anonIntrinsics"; "IteratorPrototype"] ].

End Policy.

(** ** The table as objects in a store *)

(** Evaluating an object literal creates one object per pair of braces.
    To speak of the identity of records (and of references between
    them) the literal is evaluated into a store of addressed records. *)
Module Store.

Abbreviation Rec := (list (string * Value)).
Abbreviation Store := (list Rec).

(** Defining property [k] on a record: a name already there keeps its
    place and takes the new value, a new name goes last. *)
Fixpoint define (k : string) (x : Value) (r : Rec) : Rec :=
  match r with
  | [] => [(k, x)]
  | (k', y) :: rest =>
      if String.eqb k k' then (k, x) :: rest else (k', y) :: define k x rest
  end.

(** Evaluation of a literal: the object is created empty at a fresh
    address, then each property value is evaluated, in order, and
    defined on it. *)
Fixpoint alloc (v : JsValue) (st : Store) : Value * Store :=
  match v with
  | JPrim p => (VPrim p, st)
  | JArr items =>
      let a := length st in
      let '(st', _) :=
        fold_left
          (fun '(st0, i) c =>
             let '(x, st1) := alloc c st0 in
             (alter (define (pretty i) x) a st1, S i))
          items (st ++ [[]], 0%nat) in
      (VRef a, st')
  | JObj fs =>
      let a := length st in
      (VRef a,
       fold_left
         (fun st0 '(k, c) =>
            let '(x, st1) := alloc c st0 in
            alter (define k x) a st1)
         fs (st ++ [[]]))
  end.

(** The default export, evaluated in the empty store. *)
Definition exported : Value * Store := alloc Policy.dataPropertiesToRepair [].

(** The same store, computed once. *)
Definition exported_store : Store := Eval vm_compute in snd exported.
Definition exported_root : Value := Eval vm_compute in fst exported.

Fixpoint assoc (k : string) (r : Rec) : option Value :=
  match r with
  | [] => None
  | (k', x) :: rest => if String.eqb k k' then Some x else assoc k rest
  end.

(** [x[k]]: a property read, undefined on primitives in this model. *)
Definition get (st : Store) (x : Value) (k : string) : option Value :=
  match x with
  | VRef a => match st !! a with Some r => assoc k r | None => None end
  | VPrim _ => None
  end.

Fixpoint walk (st : Store) (x : Value) (ks : list string) : option Value :=
  match ks with
  | [] => Some x
  | k :: rest =>
      match get st x k with
      | Some y => walk st y rest
      | None => None
      end
  end.

(** One record refers to another. *)
Definition edge (st : Store) (a b : nat) : Prop :=
  exists r k, st !! a = Some r /\ In (k, VRef b) r.

(** All the values within [n] property reads of [x], with their paths. *)
Fixpoint walks (n : nat) (st : Store) (x : Value) : list (list string * Value) :=
  ([], x) ::
  match n, x with
  | S m, VRef a =>
      match st !! a with
      | Some r =>
          flat_map (fun '(k, y) => map (fun '(ks, z) => (k :: ks, z)) (walks m st y)) r
      | None => []
      end
  | _, _ => []
  end.

(** A value of the literal and what a walk of the store finds: the same
    primitive, or a reference where the literal has braces or brackets. *)
Definition same_node (v : JsValue) (x : Value) : bool :=
  match v, x with
  | JPrim p, VPrim q => bool_decide (p = q)
  | JObj _, VRef _ => true
  | JArr _, VRef _ => true
  | _, _ => false
  end.

(** Every edge of the store goes from a lower to a higher address. *)
Definition forward (st : Store) : bool :=
  forallb (fun '(a, r) =>
             forallb (fun '(_, x) =>
                        match x with VRef b => Nat.ltb a b | VPrim _ => true end) r)
          (imap (fun a r => (a, r)) st).

End Store.

(** * The repair engine *)

(** The table is consumed by an engine that lives outside
    [src/bundle/dataPropertiesToRepair.js].  It is modelled here from
    its specification, over a heap of objects with property descriptors
    and prototype links. *)
Module Engine.

(** ** Objects *)

(** A property key: a string or a symbol. *)
Inductive PropKey : Type :=
| KStr (s : string)
| KSym (n : nat).

#[global] Instance PropKey_eq_dec : EqDecision PropKey.
Proof. solve_decision. Defined.

(** The getter of an accessor property.  [GDefault d] is the getter the
    repair installs, holding the captured default [d]; [GHost f] is an
    accessor the runtime came with, known by the value it returns for a
    receiver. *)
Inductive Getter : Type :=
| GDefault (d : Value)
| GHost (f : Value -> Value).

(** The setter of an accessor property.  [SShadow e] is the setter the
    repair installs: it defines the assigned value as an own data
    property of the receiver, with enumerability [e]. *)
Inductive Setter : Type :=
| SShadow (enumerable : bool)
| SHost (n : nat).

Inductive Descriptor : Type :=
| Data (value : Value) (writable enumerable configurable : bool)
| Accessor (getter : option Getter) (setter : option Setter)
           (enumerable configurable : bool).

(** An object: its prototype and its own properties in key order. *)
Record Obj : Type := mkObj {
  proto : option nat;
  props : list (PropKey * Descriptor)
}.

Abbreviation Heap := (gmap nat Obj).

(** [Object.getOwnPropertyDescriptor] on the property list. *)
Fixpoint own (ps : list (PropKey * Descriptor)) (k : PropKey) : option Descriptor :=
  match ps with
  | [] => None
  | (k', d) :: rest => if decide (k = k') then Some d else own rest k
  end.

(** [Object.defineProperty] on a key that is present: the descriptor is
    replaced in place, the key order is kept. *)
Fixpoint redefine (ps : list (PropKey * Descriptor)) (k : PropKey) (d : Descriptor)
  : list (PropKey * Descriptor) :=
  match ps with
  | [] => []
  | (k', d') :: rest =>
      if decide (k = k') then (k', d) :: rest else (k', d') :: redefine rest k d
  end.

Definition own_at (h : Heap) (l : nat) (k : PropKey) : option Descriptor :=
  match h !! l with
  | Some o => own (props o) k
  | None => None
  end.

(** [Reflect.ownKeys]: every own key, strings and symbols, enumerable or
    not. *)
Definition own_keys (h : Heap) (l : nat) : list PropKey :=
  match h !! l with
  | Some o => map fst (props o)
  | None => []
  end.

(** A value is an object when it refers to an object of the heap. *)
Definition as_object (h : Heap) (x : Value) : option nat :=
  match x with
  | VRef l => match h !! l with Some _ => Some l | None => None end
  | VPrim _ => None
  end.

(** Modelled from the spec: the getter of a repaired property (4.1).
    If the receiver has its own shadow value, that value; otherwise the
    default captured from the original data property. *)
Definition call_getter (h : Heap) (g : Getter) (receiver : Value) (k : PropKey) : Value :=
  match g with
  | GDefault d =>
      match receiver with
      | VRef r =>
          match own_at h r k with
          | Some (Data v _ _ _) => v
          | _ => d
          end
      | VPrim _ => d
      end
  | GHost f => f receiver
  end.

(** Ordinary property access [receiver[k]], looking from object [l] up
    the prototype chain.  A chain of a heap is shorter than the heap is
    large, which bounds the search. *)
Fixpoint get_from (n : nat) (h : Heap) (receiver : Value) (l : nat) (k : PropKey)
  : Value :=
  match n with
  | O => undefined
  | S m =>
      match h !! l with
      | None => undefined
      | Some o =>
          match own (props o) k with
          | Some (Data v _ _ _) => v
          | Some (Accessor (Some g) _ _ _) => call_getter h g receiver k
          | Some (Accessor None _ _ _) => undefined
          | None =>
              match proto o with
              | Some p => get_from m h receiver p k
              | None => undefined
              end
          end
      end
  end.

Definition get (h : Heap) (x : Value) (k : PropKey) : Value :=
  match x with
  | VRef l => get_from (S (size h)) h x l k
  | VPrim _ => undefined
  end.

(** ** Outcomes *)

(** Modelled from the spec: RepairOutcome (3), the result of one
    attempted repair and the path of property names that led to it. *)
Inductive Result : Type :=
| Repaired
| AlreadyAccessor
| PropertyAbsent
| NonConfigurable
| RootAbsent.

#[global] Instance Result_eq_dec : EqDecision Result.
Proof. solve_decision. Defined.

Record RepairOutcome : Type := mkOutcome {
  path : list PropKey;
  result : Result
}.

(** ** PropertyRepairer *)

(** Modelled from the spec: PropertyRepairer (4.1).  No own property:
    [PropertyAbsent]; an accessor: [AlreadyAccessor]; a data property
    that is not configurable: [NonConfigurable]; a configurable data
    property is replaced by the accessor pair, enumerable as before and
    configurable: [Repaired].  Only in the last case is the heap
    changed, and only that one descriptor. *)
Definition repair (h : Heap) (l : nat) (k : PropKey) : Heap * Result :=
  match h !! l with
  | None => (h, PropertyAbsent)
  | Some o =>
      match own (props o) k with
      | None => (h, PropertyAbsent)
      | Some (Accessor _ _ _ _) => (h, AlreadyAccessor)
      | Some (Data v w e c) =>
          if c then
            let acc := Accessor (Some (GDefault v)) (Some (SShadow e)) e true in
            (<[l := mkObj (proto o) (redefine (props o) k acc)]> h, Repaired)
          else (h, NonConfigurable)
      end
  end.

(** ** The walk and its bookkeeping *)

(** Modelled from the spec: VisitGuard (3).  The objects already
    expanded under a wildcard, and the (object, policy node) pairs
    already entered by the subtree recursion. *)
Record State : Type := mkState {
  heap : Heap;
  wild : gset nat;
  seen : gset (nat * nat)
}.

Definition M (A : Type) : Type := State -> A * State.

Definition ret {A} (a : A) : M A := fun s => (a, s).
Definition bind {A B} (m : M A) (k : A -> M B) : M B :=
  fun s => let '(a, s') := m s in k a s'.

Notation "'let*' x ':=' m 'in' k" := (bind m (fun x => k))
  (at level 10, x name, m at level 100, k at level 200).

Definition read {A} (f : Heap -> A) : M A := fun s => (f (heap s), s).
Definition wild_visited (l : nat) : M bool :=
  fun s => (bool_decide (l ∈ wild s), s).
Definition mark_wild (l : nat) : M unit :=
  fun s => (tt, mkState (heap s) ({[l]} ∪ wild s) (seen s)).
Definition seen_visited (l id : nat) : M bool :=
  fun s => (bool_decide ((l, id) ∈ seen s), s).
Definition mark_seen (l id : nat) : M unit :=
  fun s => (tt, mkState (heap s) (wild s) ({[(l, id)]} ∪ seen s)).

(** Modelled from the spec: one call of PropertyRepairer, its outcome
    recorded under the path [p] (3, 4.1). *)
Definition repair_at (l : nat) (k : PropKey) (p : list PropKey) : M (list RepairOutcome) :=
  fun s =>
    let '(h, r) := repair (heap s) l k in
    ([mkOutcome p r], mkState h (wild s) (seen s)).

(** The calls of PropertyRepairer on a list of keys of one object, in
    order. *)
Fixpoint repair_each (l : nat) (ks : list PropKey) (p : list PropKey)
  : M (list RepairOutcome) :=
  match ks with
  | [] => ret []
  | k :: rest =>
      let* o1 := repair_at l k (p ++ [k]) in
      let* o2 := repair_each l rest p in
      ret (o1 ++ o2)
  end.

(** Modelled from the spec: WildcardExpander (4.2).  An object already
    expanded yields nothing.  Otherwise its own keys are listed once, the
    repairer is called on each in turn, and the object is marked as
    expanded.  A target that is not an object is reported [RootAbsent]
    (4.3). *)
Definition expandWildcard (x : Value) (p : list PropKey) : M (list RepairOutcome) :=
  let* target := read (fun h => as_object h x) in
  match target with
  | None => ret [mkOutcome p RootAbsent]
  | Some l =>
      let* visited := wild_visited l in
      if visited then ret []
      else
        let* keys := read (fun h => own_keys h l) in
        let* outs := repair_each l keys p in
        let* _ := mark_wild l in
        ret outs
  end.

(** ** The policy tree *)

(** Modelled from the spec: PolicyNode (3).  A subtree carries the
    identity of its node, which the visit guard pairs with objects. *)
#[warnings="-register-all"]
Inductive PolicyNode : Type :=
| Skip
| RepairLeaf
| WildcardLeaf
| Subtree (id : nat) (mapping : list (string * PolicyNode)).

(** Modelled from the spec: RepairPlanner (4.3).  [Skip] does nothing.
    A wildcard leaf is expanded on the root.  A repair leaf is handled
    one level up, by the subtree that holds it, on (root, key).  A
    subtree reads [root[key]] for each of its entries in order: a repair
    leaf repairs (root, key); a wildcard leaf expands the value; a nested
    subtree is entered with the value as root if the value is an object
    and the pair (value, subtree) was not entered before, reported
    [RootAbsent] if the value is not an object, and passed over if the
    pair was entered before. *)
Fixpoint plan (node : PolicyNode) (root : Value) (p : list PropKey)
  : M (list RepairOutcome) :=
  match node with
  | Skip => ret []
  | RepairLeaf => ret []
  | WildcardLeaf => expandWildcard root p
  | Subtree _ mapping =>
      let* owner := read (fun h => as_object h root) in
      match owner with
      | None => ret [mkOutcome p RootAbsent]
      | Some l =>
          (fix children (m : list (string * PolicyNode)) : M (list RepairOutcome) :=
             match m with
             | [] => ret []
             | (key, child) :: rest =>
                 let q := p ++ [KStr key] in
                 let* value := read (fun h => get h root (KStr key)) in
                 let* o1 :=
                   match child with
                   | Skip => ret []
                   | RepairLeaf => repair_at l (KStr key) q
                   | WildcardLeaf => expandWildcard value q
                   | Subtree id _ =>
                       let* target := read (fun h => as_object h value) in
                       match target with
                       | None => ret [mkOutcome q RootAbsent]
                       | Some v =>
                           let* visited := seen_visited v id in
                           if visited then ret []
                           else
                             let* _ := mark_seen v id in
                             plan child value q
                       end
                   end in
                 let* o2 := children rest in
                 ret (o1 ++ o2)
             end) mapping
      end
  end.

(** Modelled from the spec: the two categories of the top level (6). *)
Definition categories : list string := ["namedIntrinsics"; "anonIntrinsics"].

(** The policy node of a name in a mapping; a name that is absent is
    skipped. *)
Fixpoint entry (k : string) (m : list (string * PolicyNode)) : PolicyNode :=
  match m with
  | [] => Skip
  | (k', n) :: rest => if String.eqb k k' then n else entry k rest
  end.

(** Each category in turn, planned against the root it resolves to. *)
Fixpoint plan_categories (top : list (string * PolicyNode))
    (roots : gmap string Value) (cs : list string) : M (list RepairOutcome) :=
  match cs with
  | [] => ret []
  | c :: rest =>
      let* o1 := plan (entry c top) (default undefined (roots !! c)) [KStr c] in
      let* o2 := plan_categories top roots rest in
      ret (o1 ++ o2)
  end.

(** Modelled from the spec: the entry point (4.3, 6).  Each of the two
    categories of the policy is planned against the root the mapping
    resolves it to; a category the mapping does not resolve has an
    undefined root.  The visit guard starts empty. *)
Definition repairDataProperties (policy : PolicyNode) (roots : gmap string Value)
    (h : Heap) : Heap * list RepairOutcome :=
  match policy with
  | Subtree _ top =>
      let '(outs, s) := plan_categories top roots categories (mkState h ∅ ∅) in
      (heap s, outs)
  | _ => (h, [])
  end.

(** ** What a second run sees *)

(** A [Repaired] property is an accessor from then on; every other
    outcome repeats. *)
Definition settle (r : Result) : Result :=
  match r with
  | Repaired => AlreadyAccessor
  | _ => r
  end.

Definition settle_outcome (o : RepairOutcome) : RepairOutcome :=
  mkOutcome (path o) (settle (result o)).

(** [desc_le d d']: [d'] is [d], or [d] is a configurable data property
    and [d'] the accessor pair the repair puts in its place. *)
Definition desc_le (d d' : Descriptor) : Prop :=
  d' = d \/
  exists v w e,
    d = Data v w e true /\
    d' = Accessor (Some (GDefault v)) (Some (SShadow e)) e true.

Definition props_le (ps ps' : list (PropKey * Descriptor)) : Prop :=
  Forall2 (fun kd kd' => fst kd' = fst kd /\ desc_le (snd kd) (snd kd')) ps ps'.

Definition obj_le (o o' : Obj) : Prop :=
  proto o' = proto o /\ props_le (props o) (props o').

(** [heap_le h h']: [h'] is [h] with some configurable data properties
    repaired; same objects, same prototypes, same keys. *)
Definition heap_le (h h' : Heap) : Prop :=
  forall l, option_Forall2 obj_le (h !! l) (h' !! l).

Definition with_heap (hf : Heap) (s : State) : State :=
  mkState hf (wild s) (seen s).

(** [sim f m m']: running [m] only repairs, and on any heap that
    extends the one [m] leaves, [m'] changes nothing, moves the visit
    guard as [m] did and returns the image by [f] of what [m]
    returned. *)
Definition sim {A} (f : A -> A) (m m' : M A) : Prop :=
  forall s,
    heap_le (heap s) (heap (snd (m s))) /\
    forall hf, heap_le (heap (snd (m s))) hf ->
      m' (with_heap hf s) = (f (fst (m s)), with_heap hf (snd (m s))).

Abbreviation stable m := (sim (map settle_outcome) m m).

(** The outcomes the idempotence property of the specification allows in
    a second run, and those a second run can have. *)
Definition claimed_second_run (r : Result) : Prop :=
  r = AlreadyAccessor \/ r = RootAbsent \/ r = PropertyAbsent.

Definition possible_second_run (r : Result) : Prop :=
  r = AlreadyAccessor \/ r = RootAbsent \/ r = PropertyAbsent \/
  r = NonConfigurable.

(** ** Two small runtimes *)

(** A runtime with a cycle: the global object (0) binds [Error] (1),
    whose [prototype] (2) has a [constructor] that is [Error] again, a
    [message] that defaults to the empty string and a [name] that is not
    configurable; an instance (3) inherits from the prototype, which
    inherits from [Object.prototype] (4). *)
Definition demo_heap : Heap :=
  <[ 0%nat := mkObj None [(KStr "Error", Data (VRef 1) true false true)] ]>
  (<[ 1%nat := mkObj None [(KStr "prototype", Data (VRef 2) false false false)] ]>
  (<[ 2%nat := mkObj (Some 4%nat)
       [(KStr "constructor", Data (VRef 1) true false true);
        (KStr "message", Data (VPrim (PStr "")) true false true);
        (KStr "name", Data (VPrim (PStr "Error")) true false false)] ]>
  (<[ 3%nat := mkObj (Some 2%nat) [] ]>
  (<[ 4%nat := mkObj None [(KStr "toString", Accessor None None false true)] ]>
   ∅)))).

Definition demo_roots : gmap string Value :=
  {[ "namedIntrinsics" := VRef 0 ]}.

(** A policy that follows the cycle: under [Error.prototype] it enters
    [constructor], whose [prototype] is the node it came from. *)
Definition demo_policy : PolicyNode :=
  Subtree 0 [
    ("namedIntrinsics", Subtree 1 [
      ("Error", Subtree 2 [
        ("prototype", Subtree 3 [
          ("message", RepairLeaf);
          ("name", RepairLeaf);
          ("stack", RepairLeaf);
          ("constructor", Subtree 4 [
            ("prototype", Subtree 3 [("message", RepairLeaf)])
          ])
        ])
      ]);
      ("Promise", Subtree 5 [("prototype", WildcardLeaf)])
    ]);
    ("anonIntrinsics", Subtree 6 [("IteratorPrototype", WildcardLeaf)])
  ].

(** A runtime with a frozen property: one root object whose property
    ["x"] was made non-configurable before the pass, and a policy that
    asks for its repair. *)
Definition frozen_heap : Heap :=
  {[ 0%nat := mkObj None [(KStr "x", Data (VPrim (PNum 1)) true true false)] ]}.

Definition frozen_roots : gmap string Value :=
  {[ "namedIntrinsics" := VRef 0 ]}.

Definition frozen_policy : PolicyNode :=
  Subtree 0 [("namedIntrinsics", Subtree 1 [("x", RepairLeaf)])].

End Engine.

(** Case analysis on membership in a list that computes: one goal per
    element, with the element substituted. *)
Ltac each_case H :=
  vm_compute in H;
  repeat (destruct H as [H | H]; [inversion H; subst; clear H |]);
  [.. | contradiction].

(** * Facts about the exported table *)

Module PolicyFacts.
Import Policy.

(** ** The enumeration of nodes is complete *)

Lemma at_path_nodes v ks w : at_path v ks w -> In (ks, w) (nodes v).
Proof.
  induction 1 as [v | fs k c ks w Hin _ IH | items i c ks w Hi _ IH].
  - destruct v; simpl; auto.
  - simpl. right. apply in_flat_map. exists (k, c). split; [exact Hin |].
    apply in_map_iff. exists (ks, w). auto.
  - simpl. right. apply in_concat.
    exists (map (fun '(ks, w) => (pretty i :: ks, w)) (nodes c)). split.
    + apply list_elem_of_In, list_elem_of_lookup. exists i.
      rewrite list_lookup_imap, list_lookup_fmap, Hi. reflexivity.
    + apply in_map_iff. exists (ks, w). auto.
Qed.

(** Induction on values, with the hypothesis for every item of an array
    and every field of a record. *)
Lemma JsValue_induction (P : JsValue -> Prop) :
  (forall p, P (JPrim p)) ->
  (forall items, Forall P items -> P (JArr items)) ->
  (forall fs, Forall (fun kv => P (snd kv)) fs -> P (JObj fs)) ->
  forall v, P v.
Proof.
  intros HP HA HO. fix IH 1. intros [p | items | fs].
  - apply HP.
  - apply HA. induction items as [| c rest IHl]; constructor.
    + apply IH.
    + exact IHl.
  - apply HO. induction fs as [| [k c] rest IHl]; constructor.
    + apply IH.
    + exact IHl.
Qed.

(** The enumeration lists nothing but nodes. *)
Lemma nodes_at_path v : forall ks w, In (ks, w) (nodes v) -> at_path v ks w.
Proof.
  induction v as [p | items IH | fs IH] using JsValue_induction;
    intros ks w Hin; simpl in Hin;
    (destruct Hin as [[= <- <-] | Hin]; [constructor |]).
  - contradiction.
  - apply in_concat in Hin as (l & Hl & Hin).
    apply list_elem_of_In, list_elem_of_lookup in Hl as (i & Hl).
    apply list_lookup_imap_Some in Hl as (ns & Hns & ->).
    rewrite list_lookup_fmap in Hns.
    destruct (items !! i) as [c |] eqn:Hi; [| discriminate].
    injection Hns as <-.
    apply in_map_iff in Hin as ([ks' w'] & [= <- <-] & Hin).
    apply (at_item _ _ _ _ _ Hi).
    rewrite List.Forall_forall in IH. apply IH; [| exact Hin].
    apply list_elem_of_In, list_elem_of_lookup. eauto.
  - apply in_flat_map in Hin as ([k c] & Hkc & Hin).
    apply in_map_iff in Hin as ([ks' w'] & [= <- <-] & Hin).
    apply (at_field _ _ _ _ _ Hkc).
    rewrite List.Forall_forall in IH. apply (IH (k, c) Hkc), Hin.
Qed.

(** [lookup_path] finds values that are in the tree. *)
Lemma field_In k fs v : field k fs = Some v -> In (k, v) fs.
Proof.
  induction fs as [| [k' c] rest IH]; simpl; [discriminate |].
  destruct (String.eqb_spec k k') as [-> | _].
  - intros [= ->]. now left.
  - intros H. right. auto.
Qed.

Lemma lookup_path_at v ks w : lookup_path v ks = Some w -> at_path v ks w.
Proof.
  revert v. induction ks as [| k ks IH]; intros v; simpl.
  - intros [= ->]. constructor.
  - destruct v as [p | items | fs]; try discriminate.
    destruct (field k fs) as [c |] eqn:Hf; [| discriminate].
    intros H. eapply at_field; [apply field_In, Hf | apply IH, H].
Qed.

(** ** C1 *)

(** C1. Every value reachable in the exported table is a nested record,
    the boolean [true], the string ["*"], or a falsy value; no node of
    the table is anything else (a number other than zero, another string,
    an array). *)
Theorem policy_nodes_have_four_shapes ks v :
  at_path dataPropertiesToRepair ks v ->
  ((exists fs, v = JObj fs) \/ v = JBool true \/ v = JStr "*" \/ falsy v = true)
  /\ shape_of v <> Other.
Proof.
  intros H. apply at_path_nodes in H; each_case H; (split; [eauto | discriminate]).
Qed.

Lemma policy_nodes_have_four_shapes_witness :
  ((exists fs, JStr "*" = JObj fs) \/ JStr "*" = JBool true \/
   JStr "*" = JStr "*" \/ falsy (JStr "*") = true)
  /\ shape_of (JStr "*") <> Other.
Proof.
  apply (policy_nodes_have_four_shapes ["anonIntrinsics"; "IteratorPrototype"]).
  apply lookup_path_at. reflexivity.
Defined.

(** ** C2 *)

(** C2. The top level of the exported table has exactly the two keys
    ["namedIntrinsics"] and ["anonIntrinsics"], in that order, each bound
    to a record whose values are policy nodes; there is no third
    category. *)
Theorem policy_top_level_two_categories :
  keys_at dataPropertiesToRepair [] = Some ["namedIntrinsics"; "anonIntrinsics"]
  /\ exists named anon,
       dataPropertiesToRepair =
         JObj [("namedIntrinsics", JObj named); ("anonIntrinsics", JObj anon)]
       /\ Forall (fun kv => shape_of (snd kv) <> Other) named
       /\ Forall (fun kv => shape_of (snd kv) <> Other) anon.
Proof.
  split; [reflexivity |].
  eexists _, _. split; [reflexivity |].
  split; repeat constructor; discriminate.
Qed.

(** ** C4 *)

(** C4. Following namedIntrinsics, Error, prototype, message in the
    exported table yields the repair leaf [true], and nothing else sits
    at that path. *)
Theorem policy_error_prototype_message :
  lookup_path dataPropertiesToRepair
    ["namedIntrinsics"; "Error"; "prototype"; "message"] = Some (JBool true)
  /\ shape_of (JBool true) = RepairTrue
  /\ Forall (fun '(ks, v) =>
               ks = ["namedIntrinsics"; "Error"; "prototype"; "message"] ->
               v = JBool true)
            (nodes dataPropertiesToRepair).
Proof.
  split; [reflexivity |]. split; [reflexivity |].
  vm_compute. repeat constructor; intros; try discriminate; reflexivity.
Qed.

(** ** C5 *)

Lemma mem_In k l : mem k l = true <-> In k l.
Proof.
  unfold mem. rewrite existsb_exists. split.
  - intros (x & Hx & He). apply String.eqb_eq in He. now subst.
  - intros H. exists k. split; [exact H | apply String.eqb_refl].
Qed.

Lemma Forall_mem l g :
  forallb (fun k => mem k g) l = true -> Forall (fun k => In k g) l.
Proof.
  rewrite forallb_forall, List.Forall_forall.
  intros H k Hk. apply mem_In, H, Hk.
Qed.

Lemma Forall_not_mem l g :
  forallb (fun k => negb (mem k g)) l = true -> Forall (fun k => ~ In k g) l.
Proof.
  rewrite forallb_forall, List.Forall_forall.
  intros H k Hk Hin. apply mem_In in Hin. apply H in Hk.
  rewrite Hin in Hk. discriminate.
Qed.

(** The keys of the two categories. *)
Lemma named_keys :
  keys_at dataPropertiesToRepair ["namedIntrinsics"] =
    Some ["Object"; "Array"; "Function"; "Error"; "TypeError"; "Promise"].
Proof. reflexivity. Qed.

Lemma anon_keys :
  keys_at dataPropertiesToRepair ["anonIntrinsics"] =
    Some ["TypedArray"; "GeneratorFunction"; "AsyncFunction";
          "AsyncGeneratorFunction"; "IteratorPrototype"].
Proof. reflexivity. Qed.

(** C5, as stated, fails: the keys of namedIntrinsics are not Object,
    Array, Function, Error, the error subtypes and Promise, because
    RangeError is an error subtype and is not a key. *)
Lemma named_keys_miss_error_subtypes :
  ~ (exists names,
       keys_at dataPropertiesToRepair ["namedIntrinsics"] = Some names
       /\ forall k,
            In k names <->
            In k (["Object"; "Array"; "Function"; "Error"] ++ native_errors
                  ++ ["Promise"])).
Proof.
  intros (names & Hk & Hiff). rewrite named_keys in Hk.
  injection Hk as <-.
  assert (Hr : In "RangeError"
                 (["Object"; "Array"; "Function"; "Error"] ++ native_errors
                  ++ ["Promise"])) by (vm_compute; tauto).
  apply Hiff in Hr. vm_compute in Hr.
  repeat (destruct Hr as [Hr | Hr]; [discriminate Hr |]). exact Hr.
Qed.

(** C5, amended. The keys of namedIntrinsics are exactly Object, Array,
    Function, Error, TypeError and Promise; TypeError is the only error
    subtype among them; each key is the name of a constructor bound on
    the global object, and none is a key of anonIntrinsics. *)
Theorem named_keys_are_global_bindings :
  exists names anons,
    keys_at dataPropertiesToRepair ["namedIntrinsics"] = Some names
    /\ keys_at dataPropertiesToRepair ["anonIntrinsics"] = Some anons
    /\ names = ["Object"; "Array"; "Function"; "Error"; "TypeError"; "Promise"]
    /\ filter (fun k => mem k native_errors = true) names = ["TypeError"]
    /\ Forall (fun k => In k global_constructors) names
    /\ Forall (fun k => ~ In k anons) names.
Proof.
  eexists _, _. split; [apply named_keys |]. split; [apply anon_keys |].
  split; [reflexivity |]. split; [reflexivity |].
  split; [apply Forall_mem | apply Forall_not_mem]; reflexivity.
Qed.

(** ** C6 *)

(** C6. The keys of anonIntrinsics are exactly TypedArray,
    GeneratorFunction, AsyncFunction, AsyncGeneratorFunction and
    IteratorPrototype; none of them is the name of a constructor bound on
    the global object, and none is a key of namedIntrinsics. *)
Theorem anon_keys_have_no_global_binding :
  exists names anons,
    keys_at dataPropertiesToRepair ["namedIntrinsics"] = Some names
    /\ keys_at dataPropertiesToRepair ["anonIntrinsics"] = Some anons
    /\ anons = ["TypedArray"; "GeneratorFunction"; "AsyncFunction";
                "AsyncGeneratorFunction"; "IteratorPrototype"]
    /\ Forall (fun k => ~ In k global_constructors) anons
    /\ Forall (fun k => ~ In k names) anons.
Proof.
  eexists _, _. split; [apply named_keys |]. split; [apply anon_keys |].
  split; [reflexivity |].
  split; apply Forall_not_mem; reflexivity.
Qed.

(** ** C8 *)

(** C8. The wildcard ["*"] sits at exactly four paths of the exported
    table: namedIntrinsics.Object.prototype,
    namedIntrinsics.Array.prototype, anonIntrinsics.TypedArray.prototype
    and anonIntrinsics.IteratorPrototype; every other leaf is [true]. *)
Theorem wildcard_at_four_positions ks v :
  at_path dataPropertiesToRepair ks v ->
  Forall (fun p => lookup_path dataPropertiesToRepair p = Some (JStr "*"))
         wildcard_paths
  /\ (v = JStr "*" <-> In ks wildcard_paths)
  /\ (is_leaf v = true -> v <> JStr "*" -> v = JBool true).
Proof.
  intros H.
  split; [repeat constructor |].
  apply at_path_nodes in H; each_case H;
    (split;
     [ split;
       [ intros; try discriminate; vm_compute; tauto
       | intros Hin; try reflexivity; exfalso; vm_compute in Hin;
         repeat (destruct Hin as [Hin | Hin]; [discriminate Hin |]); exact Hin ]
     | intros Hl Hn; try discriminate Hl; try reflexivity;
       exfalso; apply Hn; reflexivity ]).
Qed.

Lemma wildcard_at_four_positions_witness :
  Forall (fun p => lookup_path dataPropertiesToRepair p = Some (JStr "*"))
         wildcard_paths
  /\ (JBool true = JStr "*" <->
       In ["namedIntrinsics"; "Error"; "prototype"; "message"] wildcard_paths)
  /\ (is_leaf (JBool true) = true -> JBool true <> JStr "*" ->
       JBool true = JBool true).
Proof.
  apply (wildcard_at_four_positions
           ["namedIntrinsics"; "Error"; "prototype"; "message"]).
  apply lookup_path_at. reflexivity.
Defined.

(** ** C9 *)

(** C9. Every [true] leaf of the exported table is a field of a record
    bound to the key ["prototype"] of an intrinsic: its path is
    category, intrinsic, ["prototype"], property.  No [true] leaf sits
    directly in a category or in an intrinsic's own record. *)
Theorem repair_leaves_under_prototype ks :
  at_path dataPropertiesToRepair ks (JBool true) ->
  exists category intrinsic k fs,
    ks = [category; intrinsic] ++ ["prototype"; k]
    /\ lookup_path dataPropertiesToRepair [category; intrinsic; "prototype"]
       = Some (JObj fs)
    /\ In (k, JBool true) fs.
Proof.
  intros H. apply at_path_nodes in H; each_case H;
    (eexists _, _, _, _; split; [reflexivity |]; split; [reflexivity |];
     vm_compute; tauto).
Qed.

Lemma repair_leaves_under_prototype_witness :
  exists category intrinsic k fs,
    ["namedIntrinsics"; "Promise"; "prototype"; "constructor"]
      = [category; intrinsic] ++ ["prototype"; k]
    /\ lookup_path dataPropertiesToRepair [category; intrinsic; "prototype"]
       = Some (JObj fs)
    /\ In (k, JBool true) fs.
Proof.
  apply (repair_leaves_under_prototype
           ["namedIntrinsics"; "Promise"; "prototype"; "constructor"]).
  apply lookup_path_at. reflexivity.
Defined.

(** ** C10 *)

(** C10. Every path of the exported table has at most 4 keys, every
    path to a leaf has at least 2, and both bounds are reached:
    namedIntrinsics.Function.prototype.constructor is a leaf at depth 4
    and anonIntrinsics.IteratorPrototype a leaf at depth 2. *)
Theorem leaf_depth_between_2_and_4 ks v :
  at_path dataPropertiesToRepair ks v ->
  (length ks <= 4)%nat
  /\ (is_leaf v = true -> (2 <= length ks)%nat)
  /\ (exists deep, lookup_path dataPropertiesToRepair
         ["namedIntrinsics"; "Function"; "prototype"; "constructor"] = Some deep
         /\ is_leaf deep = true)
  /\ (exists shallow, lookup_path dataPropertiesToRepair
         ["anonIntrinsics"; "IteratorPrototype"] = Some shallow
         /\ is_leaf shallow = true).
Proof.
  intros H.
  assert (Hb : (length ks <= 4)%nat /\ (is_leaf v = true -> (2 <= length ks)%nat)).
  { apply at_path_nodes in H; each_case H; (split; [simpl; lia | simpl; intros; (discriminate || lia)]). }
  destruct Hb as [Hmax Hmin].
  split; [exact Hmax |]. split; [exact Hmin |].
  split; eexists; (split; [reflexivity | reflexivity]).
Qed.

Lemma leaf_depth_between_2_and_4_witness :
  (length ["anonIntrinsics"; "IteratorPrototype"] <= 4)%nat
  /\ (is_leaf (JStr "*") = true ->
      (2 <= length ["anonIntrinsics"; "IteratorPrototype"])%nat)
  /\ (exists deep, lookup_path dataPropertiesToRepair
         ["namedIntrinsics"; "Function"; "prototype"; "constructor"] = Some deep
         /\ is_leaf deep = true)
  /\ (exists shallow, lookup_path dataPropertiesToRepair
         ["anonIntrinsics"; "IteratorPrototype"] = Some shallow
         /\ is_leaf shallow = true).
Proof.
  apply (leaf_depth_between_2_and_4 ["anonIntrinsics"; "IteratorPrototype"]).
  apply lookup_path_at. reflexivity.
Defined.

End PolicyFacts.

(** * Facts about the table as a graph of objects *)

Module StoreFacts.
Import Store.

(** ** Forward stores have no cycle *)

Lemma forward_edge st a b : forward st = true -> edge st a b -> (a < b)%nat.
Proof.
  unfold forward. rewrite forallb_forall.
  intros Hall (r & k & Hr & Hin).
  assert (Har : In (a, r) (imap (fun a r => (a, r)) st)).
  { apply list_elem_of_In, list_elem_of_lookup. exists a.
    apply list_lookup_imap_Some. exists r. split; [exact Hr | reflexivity]. }
  apply Hall in Har. rewrite forallb_forall in Har.
  apply Har in Hin. now apply Nat.ltb_lt.
Qed.

Lemma forward_tc st a b : forward st = true -> tc (edge st) a b -> (a < b)%nat.
Proof.
  intros Hf. induction 1 as [a b He | a b c He _ IH].
  - eapply forward_edge; eauto.
  - apply (forward_edge _ _ _ Hf) in He. lia.
Qed.

Lemma forward_acyclic st a : forward st = true -> ~ tc (edge st) a a.
Proof. intros Hf Hc. apply (forward_tc _ _ _ Hf) in Hc. lia. Qed.

(** ** The enumeration of walks is complete *)

Lemma assoc_In k r x : assoc k r = Some x -> In (k, x) r.
Proof.
  induction r as [| [k' y] rest IH]; simpl; [discriminate |].
  destruct (String.eqb_spec k k') as [-> | _].
  - intros [= ->]. now left.
  - intros H. right. auto.
Qed.

Lemma walk_walks st ks : forall n x y,
  (length ks <= n)%nat -> walk st x ks = Some y -> In (ks, y) (walks n st x).
Proof.
  induction ks as [| k ks IH]; intros n x y Hn; simpl.
  - intros [= ->]. destruct n; now left.
  - destruct n as [| m]; [simpl in Hn; lia |].
    destruct x as [p | a]; cbn [walk walks get]; [discriminate |].
    destruct (st !! a) as [r |] eqn:Hr; [| discriminate].
    destruct (assoc k r) as [z |] eqn:Hz; [| discriminate].
    intros Hw. right. apply in_flat_map. exists (k, z).
    split; [apply assoc_In, Hz |].
    apply in_map_iff. exists (ks, y). split; [reflexivity |].
    apply IH; [simpl in Hn; lia | exact Hw].
Qed.

Lemma walk_app st ks1 ks2 x y :
  walk st x (ks1 ++ ks2) = Some y ->
  exists z, walk st x ks1 = Some z /\ walk st z ks2 = Some y.
Proof.
  revert x. induction ks1 as [| k ks1 IH]; intros x; simpl.
  - intros H. eauto.
  - destruct (get st x k) as [z |]; [apply IH | discriminate].
Qed.

Lemma get_first (st : Store) a k y (r : Rec) :
  st !! a = Some ((k, y) :: r) -> get st (VRef a) k = Some y.
Proof.
  intros H. unfold get. rewrite H. simpl.
  now rewrite String.eqb_refl.
Qed.

(** ** C3 *)

Lemma exported_computed : exported = (exported_root, exported_store).
Proof. vm_compute. reflexivity. Qed.

Lemma exported_forward : forward exported_store = true.
Proof. vm_compute. reflexivity. Qed.

Lemma exported_depth ks x :
  walk exported_store exported_root ks = Some x -> (length ks <= 4)%nat.
Proof.
  intros Hw. destruct (Nat.le_gt_cases (length ks) 4) as [Hle | Hgt]; [exact Hle |].
  exfalso. rewrite <- (take_drop 5 ks) in Hw.
  apply walk_app in Hw as (z & Hz & _).
  assert (Hlen : length (take 5 ks) = 5%nat) by (rewrite length_take; lia).
  apply (walk_walks _ _ 5) in Hz; [| lia].
  remember (take 5 ks) as p eqn:Hp. clear Hp.
  each_case Hz; discriminate Hlen.
Qed.

Lemma exported_walks ks x :
  walk exported_store exported_root ks = Some x ->
  match x with
  | VPrim p => p = PBool true \/ p = PStr "*"
  | VRef _ => exists k y, get exported_store x k = Some y
  end
  /\ exists v, Policy.lookup_path Policy.dataPropertiesToRepair ks = Some v
              /\ same_node v x = true.
Proof.
  intros Hw. pose proof (exported_depth _ _ Hw) as Hd.
  apply (walk_walks _ _ 4) in Hw; [| exact Hd]. clear Hd.
  each_case Hw;
    (split;
     [ first [ left; reflexivity | right; reflexivity
             | eexists _, _; eapply get_first; reflexivity ]
     | eexists; split; reflexivity ]).
Qed.

(** C3. The exported table, as objects in the store, is a finite tree:
    no record is reachable from itself through references, so none
    refers back to itself or to an ancestor; every path from the root
    has at most 4 steps; and a path either can be continued or has
    reached a leaf, which is [true] or ["*"].  The paths of the store are
    those of the literal. *)
Theorem exported_policy_is_finite_tree a ks x :
  walk (snd exported) (fst exported) ks = Some x ->
  ~ tc (edge (snd exported)) a a
  /\ (length ks <= 4)%nat
  /\ match x with
     | VPrim p => p = PBool true \/ p = PStr "*"
     | VRef _ => exists k y, get (snd exported) x k = Some y
     end
  /\ exists v, Policy.lookup_path Policy.dataPropertiesToRepair ks = Some v
              /\ same_node v x = true.
Proof.
  rewrite exported_computed. cbn [fst snd]. intros Hw.
  split; [apply forward_acyclic, exported_forward |].
  split; [apply (exported_depth _ _ Hw) |].
  apply exported_walks, Hw.
Qed.

Lemma exported_policy_is_finite_tree_witness :
  ~ tc (edge (snd exported)) 0%nat 0%nat
  /\ (length ["namedIntrinsics"; "Array"; "prototype"] <= 4)%nat
  /\ (PStr "*" = PBool true \/ PStr "*" = PStr "*")
  /\ exists v, Policy.lookup_path Policy.dataPropertiesToRepair
                 ["namedIntrinsics"; "Array"; "prototype"] = Some v
              /\ same_node v (VPrim (PStr "*")) = true.
Proof.
  apply (exported_policy_is_finite_tree 0%nat
           ["namedIntrinsics"; "Array"; "prototype"] (VPrim (PStr "*"))).
  reflexivity.
Defined.

End StoreFacts.

(** * Facts about the repair engine *)

Module EngineFacts.
Import Engine.

(** ** Repairs only extend *)

Lemma desc_le_refl d : desc_le d d.
Proof. now left. Qed.

Lemma desc_le_trans d1 d2 d3 : desc_le d1 d2 -> desc_le d2 d3 -> desc_le d1 d3.
Proof.
  intros [-> | (v & w & e & -> & ->)] [-> | (v' & w' & e' & H & ->)].
  - now left.
  - right. eauto.
  - right. eauto.
  - discriminate.
Qed.

Lemma props_le_refl ps : props_le ps ps.
Proof. induction ps; constructor; auto using desc_le_refl. Qed.

Lemma props_le_trans ps1 ps2 ps3 :
  props_le ps1 ps2 -> props_le ps2 ps3 -> props_le ps1 ps3.
Proof.
  intros H12. revert ps3.
  induction H12 as [| x y l l' [Hk Hd] _ IH]; intros ps3 H23.
  - inversion H23. constructor.
  - inversion H23 as [| y' z m m' Hyz Hrest]; subst.
    destruct Hyz as [Hk' Hd'].
    constructor; [split; [congruence | eapply desc_le_trans; eauto] |].
    apply IH, Hrest.
Qed.

Lemma obj_le_refl o : obj_le o o.
Proof. split; [reflexivity | apply props_le_refl]. Qed.

Lemma obj_le_trans o1 o2 o3 : obj_le o1 o2 -> obj_le o2 o3 -> obj_le o1 o3.
Proof.
  intros [Hp Hq] [Hp' Hq']. split; [congruence | eapply props_le_trans; eauto].
Qed.

Lemma heap_le_refl h : heap_le h h.
Proof.
  intros l. destruct (h !! l); constructor. apply obj_le_refl.
Qed.

Lemma heap_le_trans h1 h2 h3 : heap_le h1 h2 -> heap_le h2 h3 -> heap_le h1 h3.
Proof.
  intros H12 H23 l. specialize (H12 l). specialize (H23 l).
  destruct H12 as [o1 o2 Ho |]; inversion H23; subst; constructor.
  eapply obj_le_trans; eauto.
Qed.

Lemma own_le ps ps' k :
  props_le ps ps' -> option_Forall2 desc_le (own ps k) (own ps' k).
Proof.
  induction 1 as [| [k1 d1] [k2 d2] l l' [Hk Hd] _ IH]; simpl in *.
  - constructor.
  - subst k2. destruct (decide (k = k1)); [constructor; exact Hd | exact IH].
Qed.

Lemma keys_le ps ps' : props_le ps ps' -> map fst ps' = map fst ps.
Proof.
  induction 1 as [| x y l l' [Hk _] _ IH]; simpl; [reflexivity |].
  now rewrite Hk, IH.
Qed.

Lemma own_at_le h h' l k :
  heap_le h h' -> option_Forall2 desc_le (own_at h l k) (own_at h' l k).
Proof.
  intros Hle. unfold own_at. destruct (Hle l) as [o o' [_ Hps] |].
  - apply own_le, Hps.
  - constructor.
Qed.

Lemma own_keys_le h h' l : heap_le h h' -> own_keys h' l = own_keys h l.
Proof.
  intros Hle. unfold own_keys. destruct (Hle l) as [o o' [_ Hps] |].
  - apply keys_le, Hps.
  - reflexivity.
Qed.

Lemma as_object_le h h' x : heap_le h h' -> as_object h' x = as_object h x.
Proof.
  intros Hle. destruct x as [p | l]; simpl; [reflexivity |].
  destruct (Hle l); reflexivity.
Qed.

Lemma heap_le_size h h' : heap_le h h' -> size h' = size h.
Proof.
  intros Hle. rewrite <- !size_dom. f_equal.
  apply set_eq. intros l. rewrite !elem_of_dom.
  destruct (Hle l) as [o o' _ |]; split; intros [? ?]; eauto; discriminate.
Qed.

Lemma redefine_le ps k v w e :
  own ps k = Some (Data v w e true) ->
  props_le ps (redefine ps k (Accessor (Some (GDefault v)) (Some (SShadow e)) e true)).
Proof.
  induction ps as [| [k' d'] rest IH]; simpl; [discriminate |].
  destruct (decide (k = k')) as [-> | Hne].
  - intros [= ->]. constructor; [| apply props_le_refl].
    split; [reflexivity |]. right. eauto.
  - intros H. constructor; [split; [reflexivity | apply desc_le_refl] |].
    apply IH, H.
Qed.

Lemma own_redefine ps k d d0 :
  own ps k = Some d0 -> own (redefine ps k d) k = Some d.
Proof.
  induction ps as [| [k' d'] rest IH]; simpl; [discriminate |].
  destruct (decide (k = k')) as [-> | Hne]; simpl.
  - intros _. now rewrite decide_True.
  - intros H. rewrite decide_False by exact Hne. auto.
Qed.

Lemma repair_le h l k : heap_le h (fst (repair h l k)).
Proof.
  unfold repair. destruct (h !! l) as [o |] eqn:Ho; [| apply heap_le_refl].
  destruct (own (props o) k) as [[v w e [] | g s e c] |] eqn:Hown;
    simpl; try apply heap_le_refl.
  intros l'. destruct (decide (l = l')) as [<- | Hne].
  - rewrite lookup_insert_eq, Ho. constructor.
    split; [reflexivity | eapply redefine_le, Hown].
  - rewrite lookup_insert_ne by exact Hne.
    destruct (h !! l'); constructor. apply obj_le_refl.
Qed.

(** ** Reads do not see repairs *)

(** A lookup that starts at the receiver reaches an object either at
    the receiver itself or after passing it, so the receiver has no own
    data property to shadow the default of a repaired one. *)
Lemma get_from_le h h' r k :
  heap_le h h' ->
  forall n l, l = r \/ own_at h r k = None ->
  get_from n h' (VRef r) l k = get_from n h (VRef r) l k.
Proof.
  intros Hle. induction n as [| m IH]; intros l Hinv; simpl; [reflexivity |].
  pose proof (own_at_le h h' r k Hle) as Hr.
  pose proof (Hle l) as Hol.
  destruct (h !! l) as [o |] eqn:Ho; destruct (h' !! l) as [o' |] eqn:Ho';
    inversion Hol as [? ? [Hproto Hps] |]; subst; [| reflexivity].
  assert (Hrecv : own_at h r k = own (props o) k \/ own_at h r k = None).
  { destruct Hinv as [-> | Hn]; [left | right; exact Hn].
    unfold own_at. now rewrite Ho. }
  clear Hinv.
  pose proof (own_le _ _ k Hps) as Hl.
  destruct Hl as [d d' Hd |].
  - destruct Hd as [-> | (v & w & e & -> & ->)].
    + destruct d as [v w e c | [[d0 | f] |] st e c]; try reflexivity.
      simpl. destruct Hrecv as [Heq | Hn].
      * rewrite Heq in Hr. inversion Hr as [x y Hxy Hx Hy |]; subst.
        rewrite Heq.
        destruct Hxy as [-> | (v & w & e' & [=] & _)]. reflexivity.
      * rewrite Hn in Hr. inversion Hr. rewrite Hn. reflexivity.
    + simpl. destruct Hrecv as [Heq | Hn].
      * rewrite Heq in Hr. inversion Hr as [x y Hxy Hx Hy |]; subst.
        destruct Hxy as [-> | (v0 & w0 & e0 & [= -> -> ->] & ->)]; reflexivity.
      * rewrite Hn in Hr. inversion Hr. reflexivity.
  - rewrite Hproto. destruct (proto o) as [p |]; [| reflexivity].
    apply IH. destruct Hrecv as [Heq | Hn]; right; congruence.
Qed.

Lemma get_le h h' x k : heap_le h h' -> get h' x k = get h x k.
Proof.
  intros Hle. destruct x as [p | l]; simpl; [reflexivity |].
  rewrite (heap_le_size _ _ Hle).
  apply (get_from_le h h' l k Hle (S (size h)) l). now left.
Qed.

(** ** A repaired property stays settled *)

Lemma repair_settles h l k hf :
  heap_le (fst (repair h l k)) hf ->
  repair hf l k = (hf, settle (snd (repair h l k))).
Proof.
  unfold repair at 1 3.
  destruct (h !! l) as [o |] eqn:Ho; simpl.
  - destruct (own (props o) k) as [[v w e [] | g st e c] |] eqn:Hown; simpl;
      intros Hle; pose proof (own_at_le _ _ l k Hle) as Hl;
      unfold own_at in Hl; unfold repair.
    + rewrite lookup_insert_eq in Hl. simpl in Hl.
      rewrite (own_redefine _ _ _ _ Hown) in Hl.
      destruct (hf !! l) as [o' |]; inversion Hl as [x y Hxy Hx Hy |]; subst.
      destruct Hxy as [-> | (? & ? & ? & [=] & _)]. reflexivity.
    + rewrite Ho, Hown in Hl.
      destruct (hf !! l) as [o' |]; inversion Hl as [x y Hxy Hx Hy |]; subst.
      destruct Hxy as [-> | (? & ? & ? & [=] & _)]. reflexivity.
    + rewrite Ho, Hown in Hl.
      destruct (hf !! l) as [o' |]; inversion Hl as [x y Hxy Hx Hy |]; subst.
      destruct Hxy as [-> | (? & ? & ? & [=] & _)]. reflexivity.
    + rewrite Ho, Hown in Hl.
      destruct (hf !! l) as [o' |]; [| reflexivity].
      inversion Hl. reflexivity.
  - intros Hle. unfold repair. specialize (Hle l). rewrite Ho in Hle.
    inversion Hle. reflexivity.
Qed.

(** ** Composing runs *)

Lemma sim_ret {A} (f : A -> A) (a : A) : sim f (ret a) (ret (f a)).
Proof. intros s. split; [apply heap_le_refl | reflexivity]. Qed.

Lemma sim_bind {A B} (f : A -> A) (g : B -> B) (m m' : M A) (k k' : A -> M B) :
  sim f m m' -> (forall a, sim g (k a) (k' (f a))) -> sim g (bind m k) (bind m' k').
Proof.
  intros Hm Hk s. unfold bind.
  destruct (Hm s) as [Hle1 Hrun1].
  destruct (m s) as [a s1] eqn:Hms. simpl in *.
  destruct (Hk a s1) as [Hle2 Hrun2].
  destruct (k a s1) as [b s2] eqn:Hks. simpl in *.
  split; [eapply heap_le_trans; eauto |].
  intros hf Hhf.
  rewrite (Hrun1 hf) by (eapply heap_le_trans; eauto).
  apply Hrun2, Hhf.
Qed.

Lemma sim_read {A} (F : Heap -> A) :
  (forall h h', heap_le h h' -> F h' = F h) -> sim id (read F) (read F).
Proof.
  intros HF s. split; [apply heap_le_refl |].
  intros hf Hhf. unfold read. simpl. now rewrite (HF _ _ Hhf).
Qed.

Lemma sim_wild_visited l : sim id (wild_visited l) (wild_visited l).
Proof. intros s. split; [apply heap_le_refl | reflexivity]. Qed.

Lemma sim_seen_visited l n : sim id (seen_visited l n) (seen_visited l n).
Proof. intros s. split; [apply heap_le_refl | reflexivity]. Qed.

Lemma sim_mark_wild l : sim id (mark_wild l) (mark_wild l).
Proof. intros s. split; [apply heap_le_refl | reflexivity]. Qed.

Lemma sim_mark_seen l n : sim id (mark_seen l n) (mark_seen l n).
Proof. intros s. split; [apply heap_le_refl | reflexivity]. Qed.

(** A step that returns the same thing in both runs, followed by a
    stable continuation. *)
Lemma stable_bind {A} (m : M A) (k : A -> M (list RepairOutcome)) :
  sim id m m -> (forall a, stable (k a)) -> stable (bind m k).
Proof. intros Hm Hk. apply (sim_bind id); [exact Hm | exact Hk]. Qed.

Lemma stable_ret_nil : stable (ret []).
Proof. apply (sim_ret (map settle_outcome) []). Qed.

Lemma stable_root_absent p : stable (ret [mkOutcome p RootAbsent]).
Proof. apply (sim_ret (map settle_outcome) [mkOutcome p RootAbsent]). Qed.

(** Two stable steps in sequence, their outcomes appended. *)
Lemma stable_seq (m1 m2 : M (list RepairOutcome)) :
  stable m1 -> stable m2 ->
  stable (let* o1 := m1 in let* o2 := m2 in ret (o1 ++ o2)).
Proof.
  intros H1 H2. eapply sim_bind; [exact H1 |].
  intros a. eapply sim_bind; [exact H2 |].
  intros b. rewrite <- map_app. apply sim_ret.
Qed.

Lemma stable_repair_at l k p : stable (repair_at l k p).
Proof.
  intros s. unfold repair_at.
  pose proof (repair_le (heap s) l k) as Hle.
  pose proof (repair_settles (heap s) l k) as Hset.
  destruct (repair (heap s) l k) as [h1 r]. simpl in *.
  split; [exact Hle |].
  intros hf Hhf. rewrite (Hset hf Hhf). reflexivity.
Qed.

Lemma stable_repair_each l ks p : stable (repair_each l ks p).
Proof.
  induction ks as [| k rest IH]; simpl.
  - apply stable_ret_nil.
  - apply stable_seq; [apply stable_repair_at | exact IH].
Qed.

Lemma stable_expandWildcard x p : stable (expandWildcard x p).
Proof.
  unfold expandWildcard.
  apply stable_bind; [apply sim_read; intros; now apply as_object_le |].
  intros [l |]; [| apply stable_root_absent].
  apply stable_bind; [apply sim_wild_visited |].
  intros []; [apply stable_ret_nil |].
  apply stable_bind; [apply sim_read; intros; now apply own_keys_le |].
  intros keys. eapply sim_bind; [apply stable_repair_each |].
  intros outs. apply (sim_bind id); [apply sim_mark_wild |].
  intros _. apply sim_ret.
Qed.

(** Induction on policy trees, with the hypothesis for every entry of a
    subtree. *)
Lemma PolicyNode_induction (P : PolicyNode -> Prop) :
  P Skip -> P RepairLeaf -> P WildcardLeaf ->
  (forall id mapping, Forall (fun kn => P (snd kn)) mapping -> P (Subtree id mapping)) ->
  forall node, P node.
Proof.
  intros HS HR HW HT. fix IH 1.
  intros [| | | id mapping]; [exact HS | exact HR | exact HW |].
  apply HT. induction mapping as [| [k c] rest IHm]; constructor.
  - apply IH.
  - exact IHm.
Qed.

Lemma stable_plan node : forall root p, stable (plan node root p).
Proof.
  induction node as [| | | id mapping IH] using PolicyNode_induction;
    intros root p; simpl.
  - apply stable_ret_nil.
  - apply stable_ret_nil.
  - apply stable_expandWildcard.
  - apply stable_bind; [apply sim_read; intros; now apply as_object_le |].
    intros [l |]; [| apply stable_root_absent].
    induction IH as [| [key child] rest Hchild _ IHrest].
    + apply stable_ret_nil.
    + apply stable_bind; [apply sim_read; intros; now apply get_le |].
      intros value. apply stable_seq; [| exact IHrest].
      simpl in Hchild. destruct child as [| | | cid cm].
      * apply stable_ret_nil.
      * apply stable_repair_at.
      * apply stable_expandWildcard.
      * apply stable_bind; [apply sim_read; intros; now apply as_object_le |].
        intros [v |]; [| apply stable_root_absent].
        apply stable_bind; [apply sim_seen_visited |].
        intros []; [apply stable_ret_nil |].
        apply stable_bind; [apply sim_mark_seen |].
        intros _. apply Hchild.
Qed.

Lemma stable_plan_categories top roots cs : stable (plan_categories top roots cs).
Proof.
  induction cs as [| c rest IH]; simpl.
  - apply stable_ret_nil.
  - apply stable_seq; [apply stable_plan | exact IH].
Qed.

(** Repairing a property changes no read: the default stays reachable
    through the accessor, on the object and on whatever inherits from
    it. *)
Lemma repair_preserves_reads h l k x key :
  get (fst (repair h l k)) x key = get h x key.
Proof. apply get_le, repair_le. Qed.

(** ** The pass on the small runtime *)

Example demo_first_run :
  snd (repairDataProperties demo_policy demo_roots demo_heap) =
  [ mkOutcome [KStr "namedIntrinsics"; KStr "Error"; KStr "prototype"; KStr "message"]
              Repaired;
    mkOutcome [KStr "namedIntrinsics"; KStr "Error"; KStr "prototype"; KStr "name"]
              NonConfigurable;
    mkOutcome [KStr "namedIntrinsics"; KStr "Error"; KStr "prototype"; KStr "stack"]
              PropertyAbsent;
    mkOutcome [KStr "namedIntrinsics"; KStr "Promise"] RootAbsent;
    mkOutcome [KStr "anonIntrinsics"] RootAbsent ].
Proof. vm_compute. reflexivity. Qed.

Example demo_descriptor_after :
  own_at (fst (repairDataProperties demo_policy demo_roots demo_heap)) 2
         (KStr "message")
  = Some (Accessor (Some (GDefault (VPrim (PStr "")))) (Some (SShadow false))
                   false true).
Proof. vm_compute. reflexivity. Qed.

Example demo_default_preserved :
  get (fst (repairDataProperties demo_policy demo_roots demo_heap)) (VRef 3)
      (KStr "message")
  = VPrim (PStr "").
Proof. vm_compute. reflexivity. Qed.

(** ** C7 *)

Lemma settle_possible r : possible_second_run (settle r).
Proof. destruct r; unfold possible_second_run; simpl; auto. Qed.

Lemma settle_not_repaired r : settle r <> Repaired.
Proof. destruct r; discriminate. Qed.

(** C7, as stated, fails: where a data property is not configurable, the
    second run reports [NonConfigurable] again, which is none of
    [AlreadyAccessor], [RootAbsent], [PropertyAbsent]. *)
Lemma second_run_repeats_non_configurable :
  let first := repairDataProperties frozen_policy frozen_roots frozen_heap in
  let second := repairDataProperties frozen_policy frozen_roots (fst first) in
  map result (snd second) = [NonConfigurable]
  /\ ~ (fst second = fst first
        /\ Forall (fun o => claimed_second_run (result o)) (snd second)).
Proof.
  cbv zeta.
  assert (Hres : map result
            (snd (repairDataProperties frozen_policy frozen_roots
                    (fst (repairDataProperties frozen_policy frozen_roots
                            frozen_heap)))) = [NonConfigurable])
    by (vm_compute; reflexivity).
  split; [exact Hres |].
  intros [_ Hall].
  destruct (snd (repairDataProperties frozen_policy frozen_roots _))
    as [| o [| o' rest]]; try discriminate Hres.
  injection Hres as Hres. inversion Hall as [| ? ? Hbad _]; subst.
  rewrite Hres in Hbad. destruct Hbad as [H | [H | H]]; discriminate H.
Qed.

(** C7, amended. For every policy tree, root mapping and heap, a second
    run of the repair pass leaves every property descriptor as the first
    run left it, and reports what the first run reported with [Repaired]
    turned into [AlreadyAccessor]: its outcomes are [AlreadyAccessor],
    [RootAbsent], [PropertyAbsent] or [NonConfigurable], never
    [Repaired]. *)
Theorem repair_pass_idempotent policy roots h :
  let first := repairDataProperties policy roots h in
  let second := repairDataProperties policy roots (fst first) in
  fst second = fst first
  /\ snd second = map settle_outcome (snd first)
  /\ Forall (fun o => possible_second_run (result o)) (snd second)
  /\ Forall (fun o => result o <> Repaired) (snd second).
Proof.
  cbv zeta.
  assert (Hrun : repairDataProperties policy roots
                   (fst (repairDataProperties policy roots h))
                 = (fst (repairDataProperties policy roots h),
                    map settle_outcome (snd (repairDataProperties policy roots h)))).
  { destruct policy as [| | | id top]; try reflexivity.
    unfold repairDataProperties.
    destruct (stable_plan_categories top roots categories (mkState h ∅ ∅))
      as [_ Hsecond].
    destruct (plan_categories top roots categories (mkState h ∅ ∅))
      as [outs s1] eqn:Hfirst.
    simpl in *. specialize (Hsecond (heap s1) (heap_le_refl _)).
    unfold with_heap in Hsecond. simpl in Hsecond.
    rewrite Hsecond. reflexivity. }
  rewrite Hrun. simpl.
  split; [reflexivity |]. split; [reflexivity |].
  split; apply List.Forall_forall; intros o Ho;
    apply in_map_iff in Ho as (o1 & <- & _); simpl.
  - apply settle_possible.
  - apply settle_not_repaired.
Qed.

End EngineFacts.

(** * Further invariants of the exported table *)

Module PolicyInvariants.
Import Policy PolicyFacts.

Lemma NoDup_by_decision (l : list string) :
  bool_decide (NoDup l) = true -> NoDup l.
Proof. apply bool_decide_eq_true_1. Qed.

(** X1. No record of the table binds a name twice, so no entry is
    overridden by a later one: every node of the table is the one that
    reading its path finds. *)
Theorem policy_keys_unique ks v :
  at_path dataPropertiesToRepair ks v ->
  lookup_path dataPropertiesToRepair ks = Some v
  /\ forall fs, v = JObj fs -> NoDup (map fst fs).
Proof.
  intros H. apply at_path_nodes in H; each_case H;
    (split; [reflexivity |];
     intros fs Hfs; try discriminate Hfs; injection Hfs as <-;
     apply NoDup_by_decision; vm_compute; reflexivity).
Qed.

Lemma policy_keys_unique_witness :
  lookup_path dataPropertiesToRepair ["namedIntrinsics"; "TypeError"; "prototype"]
    = Some (JObj [("constructor", t); ("name", t)])
  /\ forall fs, JObj [("constructor", t); ("name", t)] = JObj fs ->
               NoDup (map fst fs).
Proof.
  apply (policy_keys_unique ["namedIntrinsics"; "TypeError"; "prototype"]).
  apply lookup_path_at. reflexivity.
Defined.

(** X2. The table reaches into an intrinsic through its prototype only:
    whenever an intrinsic of either category is bound to a record, that
    record has the single key ["prototype"].  No property held by a
    constructor itself is listed. *)
Theorem intrinsic_records_only_prototype category intrinsic fs :
  lookup_path dataPropertiesToRepair [category; intrinsic] = Some (JObj fs) ->
  map fst fs = ["prototype"].
Proof.
  intros H. apply lookup_path_at, at_path_nodes in H.
  each_case H; reflexivity.
Qed.

Lemma intrinsic_records_only_prototype_witness :
  map fst [("prototype", JStr "*")] = ["prototype"].
Proof.
  apply (intrinsic_records_only_prototype "anonIntrinsics" "TypedArray").
  reflexivity.
Defined.

(** X3. Wherever the table spells out the properties of a prototype
    instead of marking it ["*"], [constructor] is among those to repair:
    setting up a prototype chain by assigning the constructor is covered
    for every such intrinsic. *)
Theorem prototype_records_repair_constructor category intrinsic fs :
  lookup_path dataPropertiesToRepair [category; intrinsic; "prototype"]
    = Some (JObj fs) ->
  field "constructor" fs = Some (JBool true).
Proof.
  intros H. apply lookup_path_at, at_path_nodes in H.
  each_case H; reflexivity.
Qed.

Lemma prototype_records_repair_constructor_witness :
  field "constructor" [("constructor", t)] = Some (JBool true).
Proof.
  apply (prototype_records_repair_constructor "namedIntrinsics" "Promise").
  reflexivity.
Defined.

End PolicyInvariants.
